(** * A shallow embedding of the [logging] class (logging.hpp / logging.cpp)

    The development follows the C++ source function by function:
    - the free helpers [formatField], [logLevelToString], [getCurrentTime];
    - the [logging] object (its four data members) with its constructor,
      the two [add_log] overloads, [set_log_level], [change_log_file] and
      the destructor, written in state-passing style over a [world] that
      holds the standard streams, the file system and the clock;
    - the static [instance] slot and [get_instance], over a small heap of
      [logging] objects so that pointer identity can be stated.

    [std::string] is [string]; [size_t] lengths are [nat] (the only
    subtraction on them, in [formatField], is guarded so it never wraps);
    the [uint8_t]-backed [log_level] is its underlying value in [Z]. *)

From Stdlib Require Import ZArith Ascii String DecimalString.
From stdpp Require Import base option gmap strings.

Local Open Scope string_scope.

(** ** Strings, as [std::string] is used by the source *)

Module StdString.

(** [std::string(n, c)] *)
Fixpoint fill (n : nat) (c : ascii) : string :=
  match n with
  | O => EmptyString
  | S k => String c (fill k c)
  end.

(** [s.substr(pos, n)] for [pos <= s.length()] (the source only calls it
    with [pos = 0]). *)
Definition substr (s : string) (pos n : nat) : string :=
  String.substring pos n s.

(** [s.find_last_of(c)]: the index of the last occurrence of [c];
    [None] stands for [std::string::npos]. *)
Fixpoint find_last_of (s : string) (c : ascii) : option nat :=
  match s with
  | EmptyString => None
  | String a t =>
      match find_last_of t c with
      | Some i => Some (S i)
      | None => if Ascii.eqb a c then Some O else None
      end
  end.

(** [s.empty()] *)
Definition empty (s : string) : bool :=
  match s with
  | EmptyString => true
  | String _ _ => false
  end.

(** Occurrence of a character, used to state what [find_last_of] decides. *)
Fixpoint contains (s : string) (c : ascii) : bool :=
  match s with
  | EmptyString => false
  | String a t => Ascii.eqb a c || contains t c
  end.

(** Number of occurrences of a character. *)
Fixpoint count (s : string) (c : ascii) : nat :=
  match s with
  | EmptyString => O
  | String a t => (if Ascii.eqb a c then 1 else 0) + count t c
  end.

(** [p] is an initial segment of [s]. *)
Definition is_prefix (p s : string) : Prop := exists r, s = p ++ r.

(** No lower-case letter occurs in [s]. *)
Fixpoint is_upper (s : string) : bool :=
  match s with
  | EmptyString => true
  | String a t =>
      negb ((97 <=? nat_of_ascii a)%nat && (nat_of_ascii a <=? 122)%nat)
      && is_upper t
  end.

End StdString.

(** ** The severity enumeration

    [enum class log_level : uint8_t { DEBUG, INFO, WARNING, ERROR, FATAL,
    UNKNOWN }]: a value of the type is any value of the underlying byte. *)

Definition log_level : Type := Z.

Definition DEBUG : log_level := 0%Z.
Definition INFO : log_level := 1%Z.
Definition WARNING : log_level := 2%Z.
Definition ERROR : log_level := 3%Z.
Definition FATAL : log_level := 4%Z.
Definition UNKNOWN : log_level := 5%Z.

(** The values a [uint8_t]-backed enumeration can hold. *)
Definition is_log_level (l : log_level) : Prop := (0 <= l < 256)%Z.

(** [logLevelToString]: the [switch] with its [default] branch. *)
Definition logLevelToString (level : log_level) : string :=
  match level with
  | 0%Z => "DEBUG"
  | 1%Z => "INFO"
  | 2%Z => "WARNING"
  | 3%Z => "ERROR"
  | 4%Z => "FATAL"
  | _ => "UNKNOWN"
  end.

(** ** [formatField] *)

Definition default_width : nat := 15.

Definition formatField (input : string) (width : nat) : string :=
  if (width <? String.length input)%nat
  then StdString.substr input 0 width
  else input ++ StdString.fill (width - String.length input) " "%char.

(** ** [getCurrentTime]

    A reading of [std::chrono::system_clock::now()]: the milliseconds since
    the epoch together with the broken-down local time that
    [std::localtime] returns for it. *)

Record time_point : Type := mk_time_point {
  since_epoch_ms : Z;
  tm_hour : nat;
  tm_min : nat;
  tm_sec : nat
}.

(** The decimal digits of a number, with a leading ['-'] when negative. *)
Definition decimal (z : Z) : string :=
  NilZero.string_of_int (Z.to_int z).

(** Text right-adjusted in a field of [w] characters filled with ['0']
    ([std::setfill('0') << std::setw(w)], and the two-digit conversions
    [%H], [%M], [%S] of [std::put_time]). *)
Definition zero_padded (w : nat) (text : string) : string :=
  StdString.fill (w - String.length text) "0"%char ++ text.

Definition getCurrentTime (now : time_point) : string :=
  let ms := Z.rem (since_epoch_ms now) 1000 in
  zero_padded 2 (decimal (Z.of_nat (tm_hour now))) ++ ":"
    ++ zero_padded 2 (decimal (Z.of_nat (tm_min now))) ++ ":"
    ++ zero_padded 2 (decimal (Z.of_nat (tm_sec now))) ++ "."
    ++ zero_padded 3 (decimal ms).

(** ** The environment of the process

    The standard output and error streams (what has been written to them),
    the file system (path to content), which paths an open for appending
    succeeds on, and the current reading of the system clock. *)

Record world : Type := mk_world {
  cout : string;
  cerr : string;
  files : gmap string string;
  can_open : string -> bool;
  clock : time_point
}.

Definition endl : string := String "010"%char EmptyString.

Definition cout_put (text : string) (w : world) : world :=
  mk_world (cout w ++ text) (cerr w) (files w) (can_open w) (clock w).

Definition cerr_put (text : string) (w : world) : world :=
  mk_world (cout w) (cerr w ++ text) (files w) (can_open w) (clock w).

Definition set_files (fs : gmap string string) (w : world) : world :=
  mk_world (cout w) (cerr w) fs (can_open w) (clock w).

Definition set_clock (t : time_point) (w : world) : world :=
  mk_world (cout w) (cerr w) (files w) (can_open w) t.

(** The content of a file; a missing file reads as empty. *)
Definition file_content (w : world) (path : string) : string :=
  default EmptyString (files w !! path).

(** ** [std::ofstream]

    The stream is either closed or attached to one path.  Every stream of
    the source is opened with [std::ios::app], so a write always lands at
    the end of the file and the file is never truncated. *)

Module Ofstream.

Definition t : Type := option string.

(** A default-constructed stream. *)
Definition closed : t := None.

Definition is_open (f : t) : bool :=
  match f with
  | Some _ => true
  | None => false
  end.

(** [f.open(path, std::ios::app)]: fails on a stream that is already
    open and on a path that cannot be opened; otherwise the file is
    created when missing and the stream is attached to it. *)
Definition open (f : t) (path : string) (w : world) : t * world :=
  match f with
  | Some _ => (f, w)
  | None =>
      if can_open w path
      then (Some path,
            set_files (<[path := file_content w path]> (files w)) w)
      else (None, w)
  end.

Definition close (f : t) : t := None.

(** [f.seekp(0, std::ios_base::end)]: the put position of an append-mode
    stream is the end of the file already. *)
Definition seekp_end (f : t) : t := f.

(** [f << text] *)
Definition put (f : t) (text : string) (w : world) : world :=
  match f with
  | Some path =>
      set_files (<[path := file_content w path ++ text]> (files w)) w
  | None => w
  end.

End Ofstream.

(** ** The [logging] object: its data members, in declaration order *)

Record logging : Type := mk_logging {
  print_log : bool;
  filename : string;
  log_file : Ofstream.t;
  level : log_level
}.

Definition set_print_log (b : bool) (this : logging) : logging :=
  mk_logging b (filename this) (log_file this) (level this).

Definition set_filename (s : string) (this : logging) : logging :=
  mk_logging (print_log this) s (log_file this) (level this).

Definition set_log_file (f : Ofstream.t) (this : logging) : logging :=
  mk_logging (print_log this) (filename this) f (level this).

Definition set_level (l : log_level) (this : logging) : logging :=
  mk_logging (print_log this) (filename this) (log_file this) l.

(** The record that both [add_log] overloads build in [log_message]. *)
Definition log_message (current_time : string) (lvl : log_level)
    (fun_name message : string) : string :=
  "[" ++ formatField current_time default_width ++ "] "
  ++ "[" ++ formatField (logLevelToString lvl) default_width ++ "] "
  ++ "[" ++ formatField fun_name default_width ++ "] "
  ++ message ++ endl.

(** [void logging::add_log(log_level level, const char* fun_name,
    std::string message)]: the parameter [level] hides the member. *)
Definition add_log (this : logging) (level : log_level)
    (fun_name message : string) (w : world) : world :=
  let current_time := getCurrentTime (clock w) in
  let log_message :=
    "[" ++ formatField current_time default_width ++ "] "
    ++ "[" ++ formatField (logLevelToString level) default_width ++ "] "
    ++ "[" ++ formatField fun_name default_width ++ "] "
    ++ message ++ endl in
  let w := if print_log this then cout_put log_message w else w in
  if Ofstream.is_open (log_file this)
  then Ofstream.put (Ofstream.seekp_end (log_file this)) log_message w
  else w.

(** [void logging::add_log(const char* fun_name, std::string message)]:
    here [level] is the data member. *)
Definition add_log_2 (this : logging) (fun_name message : string)
    (w : world) : world :=
  let current_time := getCurrentTime (clock w) in
  let log_message :=
    "[" ++ formatField current_time default_width ++ "] "
    ++ "[" ++ formatField (logLevelToString (level this)) default_width ++ "] "
    ++ "[" ++ formatField fun_name default_width ++ "] "
    ++ message ++ endl in
  let w := if print_log this then cout_put log_message w else w in
  if Ofstream.is_open (log_file this)
  then Ofstream.put (Ofstream.seekp_end (log_file this)) log_message w
  else w.

(** [void logging::set_log_level(log_level level)] *)
Definition set_log_level (this : logging) (level : log_level) : logging :=
  set_level level this.

(** The constructor.  The member initialisers copy the two arguments into
    the members [filename] and [print_log]; [log_file] is default
    constructed and [level] has no initialiser, so it holds whatever the
    storage held ([indeterminate]).  Inside the body the names [filename]
    and [print_log] denote the parameters, which hide the members: the
    [.log] suffix and the assignment on the failure path go to the
    parameters and are lost when the constructor returns. *)
Definition logging_ctor (filename : string) (print_log : bool)
    (indeterminate : log_level) (w : world) : logging * world :=
  let this := mk_logging print_log filename Ofstream.closed indeterminate in
  let '(this, w) :=
    if negb (StdString.empty filename) then
      let filename :=
        match StdString.find_last_of filename "."%char with
        | None => filename ++ ".log"
        | Some _ => filename
        end in
      let '(f, w) := Ofstream.open (log_file this) filename w in
      let this := set_log_file f this in
      if negb (Ofstream.is_open (log_file this)) then
        let w := cerr_put ("Can't open log file " ++ filename ++ endl) w in
        let print_log := false in
        (this, w)
      else (this, w)
    else (this, w) in
  (this, add_log this UNKNOWN "New logger"
           "============================================" w).

(** [void logging::change_log_file(const std::string& new_filename)]:
    every name here is a data member. *)
Definition change_log_file (this : logging) (new_filename : string)
    (w : world) : logging * world :=
  let this :=
    if Ofstream.is_open (log_file this)
    then set_log_file (Ofstream.close (log_file this)) this
    else this in
  let this := set_filename new_filename this in
  if negb (StdString.empty (filename this)) then
    let this :=
      match StdString.find_last_of (filename this) "."%char with
      | None => set_filename (filename this ++ ".log") this
      | Some _ => this
      end in
    let '(f, w) := Ofstream.open (log_file this) (filename this) w in
    let this := set_log_file f this in
    if negb (Ofstream.is_open (log_file this)) then
      let w := cerr_put ("Can't open log file " ++ filename this ++ endl) w in
      let this := set_print_log false this in
      (this, w)
    else (this, w)
  else (this, w).

(** The destructor. *)
Definition logging_dtor (this : logging) : logging :=
  if Ofstream.is_open (log_file this)
  then set_log_file (Ofstream.close (log_file this)) this
  else this.

(** ** Calls on a logger, and the passing of time *)

Inductive method : Type :=
| Add_log (level : log_level) (fun_name message : string)
| Add_log_2 (fun_name message : string)
| Set_log_level (level : log_level)
| Change_log_file (new_filename : string).

Inductive event : Type :=
| Call (m : method)
| Tick (now : time_point).

Definition invoke (m : method) (this : logging) (w : world)
    : logging * world :=
  match m with
  | Add_log l f msg => (this, add_log this l f msg w)
  | Add_log_2 f msg => (this, add_log_2 this f msg w)
  | Set_log_level l => (set_log_level this l, w)
  | Change_log_file n => change_log_file this n w
  end.

Definition step (e : event) (s : logging * world) : logging * world :=
  match e with
  | Call m => invoke m (fst s) (snd s)
  | Tick t => (fst s, set_clock t (snd s))
  end.

Definition run (es : list event) (s : logging * world) : logging * world :=
  fold_left (fun s e => step e s) es s.

(** The events that leave the choice of file alone. *)
Definition keeps_file (e : event) : bool :=
  match e with
  | Call (Change_log_file _) => false
  | _ => true
  end.

(** The record a log call emits, for the two overloads. *)
Definition emitted (m : method) (this : logging) (w : world) : string :=
  match m with
  | Add_log l f msg => log_message (getCurrentTime (clock w)) l f msg
  | Add_log_2 f msg =>
      log_message (getCurrentTime (clock w)) (level this) f msg
  | _ => EmptyString
  end.

Definition is_log_call (m : method) : bool :=
  match m with
  | Add_log _ _ _ | Add_log_2 _ _ => true
  | _ => false
  end.

(** The name under which a caller-supplied path is opened, as the
    specification words it. *)
Definition named_file (path : string) : string :=
  if StdString.contains path "."%char then path else path ++ ".log".

(** ** The process: the static [instance] and [get_instance]

    [heap] holds the [logging] objects created by [new], by address;
    [instance] is the static [std::unique_ptr<logging>], where [None] is
    the null pointer.  The mutex makes [get_instance] and
    [change_log_file] atomic with respect to each other; each is one step
    here. *)

Definition addr : Type := positive.

Record process : Type := mk_process {
  heap : gmap positive logging;
  instance : option addr;
  env : world
}.

(** [instance.reset(p)]: takes ownership of [p] and destroys the object
    held before, if any. *)
Definition unique_ptr_reset (p : addr) (st : process) : process :=
  match instance st with
  | Some old => mk_process (delete old (heap st)) (Some p) (env st)
  | None => mk_process (heap st) (Some p) (env st)
  end.

(** [new logging(filename, print_log)] *)
Definition new_logging (filename : string) (print_log : bool)
    (indeterminate : log_level) (st : process) : addr * process :=
  let '(obj, w) := logging_ctor filename print_log indeterminate (env st) in
  let p := fresh (dom (heap st)) in
  (p, mk_process (<[p := obj]> (heap st)) (instance st) w).

(** [logging* logging::get_instance(std::string filename, bool print_log)];
    the result is [instance.get()]. *)
Definition get_instance (filename : string) (print_log : bool)
    (indeterminate : log_level) (st : process) : option addr * process :=
  let st :=
    match instance st with
    | None =>
        let '(p, st) := new_logging filename print_log indeterminate st in
        unique_ptr_reset p st
    | Some _ => st
    end in
  (instance st, st).

(** What client code can do.  The constructor is private and the object
    is owned by [instance] until the process ends, so the only pointers a
    client holds are results of [get_instance] (such as [logger::log]):
    a method call is a call on the object that [instance] owns. *)
Inductive action : Type :=
| Get_instance (filename : string) (print_log : bool)
    (indeterminate : log_level)
| On_logger (e : event).

Definition on_instance (e : event) (st : process) : process :=
  match instance st with
  | Some p =>
      match heap st !! p with
      | Some obj =>
          let '(obj, w) := step e (obj, env st) in
          mk_process (<[p := obj]> (heap st)) (instance st) w
      | None => st
      end
  | None =>
      match e with
      | Tick t => mk_process (heap st) (instance st) (set_clock t (env st))
      | Call _ => st
      end
  end.

Definition act (a : action) (st : process) : process :=
  match a with
  | Get_instance f b i => snd (get_instance f b i st)
  | On_logger e => on_instance e st
  end.

Definition execute (acts : list action) (st : process) : process :=
  fold_left (fun st a => act a st) acts st.

(** The process before any dynamic initialisation has run. *)
Definition process_start (w : world) : process :=
  mk_process ∅ None w.

(** [logger::log = logging::get_instance("app", true)], the dynamic
    initialiser that runs before [main]. *)
Definition logger_log (indeterminate : log_level) (w : world)
    : option addr * process :=
  get_instance "app" true indeterminate (process_start w).

(** The heap holds the object that [instance] owns and nothing else. *)
Definition sole_owner (st : process) : Prop :=
  match instance st with
  | Some p => dom (heap st) = {[p]}
  | None => heap st = ∅
  end.

(** ** Sample environments, used to evaluate the code on concrete inputs *)

Definition sample_time : time_point := mk_time_point 1700000000865 22 2 51.

(** A file system on which no open succeeds (a read-only directory). *)
Definition sealed_world : world :=
  mk_world EmptyString EmptyString ∅ (fun _ => false) sample_time.

(** A file system on which every open succeeds. *)
Definition open_world : world :=
  mk_world EmptyString EmptyString ∅ (fun _ => true) sample_time.

(** A logger writing to the console and to [app.log]. *)
Definition app_logger : logging :=
  mk_logging true "app" (Some "app.log") INFO.

Definition banner : string := "============================================".

(** A world in which "app.log" already holds a line of an earlier run. *)
Definition used_world : world :=
  mk_world EmptyString EmptyString
    {["app.log" := "earlier run" ++ endl]} (fun _ => true) sample_time.

(** ** Notions used to state what the code keeps

    The digits of a clock field, most significant first. *)

Definition digit (n : nat) : ascii := ascii_of_nat (48 + n).

Definition two_digits (n : nat) : string :=
  String (digit (n / 10)) (String (digit (n mod 10)) EmptyString).

Definition three_digits (n : nat) : string :=
  String (digit (n / 100)) (two_digits (n mod 100)).

(** What was written stays written: both streams and every file of [w']
    extend what they held in [w], and no file has gone. *)
Definition grows (w w' : world) : Prop :=
  StdString.is_prefix (cout w) (cout w')
  /\ StdString.is_prefix (cerr w) (cerr w')
  /\ forall path : string,
       StdString.is_prefix (file_content w path) (file_content w' path)
       /\ (is_Some (files w !! path) -> is_Some (files w' !! path)).

(** The level that [set_log_level] calls among [es] leave stored, starting
    from [l]. *)
Definition last_level (es : list event) (l : log_level) : log_level :=
  fold_left
    (fun l e => match e with Call (Set_log_level l') => l' | _ => l end)
    es l.

(** * Properties *)

(** ** Facts about strings *)

Section StringFacts.

Import StdString.

Lemma append_cons (a : ascii) (s t : string) :
  String a s ++ t = String a (s ++ t).
Proof. reflexivity. Qed.

Lemma append_empty_r (s : string) : s ++ EmptyString = s.
Proof.
  induction s as [|a s IH]; [reflexivity|].
  rewrite append_cons, IH. reflexivity.
Qed.

Lemma append_assoc (s t u : string) : (s ++ t) ++ u = s ++ (t ++ u).
Proof.
  induction s as [|a s IH]; [reflexivity|].
  rewrite !append_cons, IH. reflexivity.
Qed.

Lemma append_inv_l (s t u : string) : s ++ t = s ++ u -> t = u.
Proof.
  induction s as [|a s IH]; [exact id|].
  rewrite !append_cons. intros H. injection H as H. exact (IH H).
Qed.

Lemma length_append (s t : string) :
  String.length (s ++ t) = String.length s + String.length t.
Proof.
  induction s as [|a s IH]; [reflexivity|].
  rewrite append_cons. cbn [String.length]. rewrite IH. reflexivity.
Qed.

Lemma length_fill (n : nat) (c : ascii) : String.length (fill n c) = n.
Proof. induction n as [|n IH]; cbn; [reflexivity | now rewrite IH]. Qed.

(** Taking the first [n] characters splits the string. *)
Lemma substr_split (s : string) (n : nat) :
  n <= String.length s ->
  exists r, s = substr s 0 n ++ r /\ String.length (substr s 0 n) = n.
Proof.
  unfold substr. revert n.
  induction s as [|a s IH]; intros [|n] Hn; cbn in Hn |- *.
  - exists EmptyString. split; reflexivity.
  - lia.
  - exists (String a s). split; reflexivity.
  - destruct (IH n) as (r & Hr & Hl); [lia|].
    exists r. rewrite append_cons, <- Hr. cbn. now rewrite Hl.
Qed.

Lemma find_last_of_contains (s : string) (c : ascii) :
  find_last_of s c = None <-> contains s c = false.
Proof.
  induction s as [|a s IH]; cbn; [tauto|].
  destruct (find_last_of s c) as [i|], (contains s c), (Ascii.eqb a c);
    cbn; intuition congruence.
Qed.

Lemma empty_false (s : string) : s <> EmptyString -> empty s = false.
Proof. destruct s; [congruence | reflexivity]. Qed.

Lemma count_append (s t : string) (c : ascii) :
  count (s ++ t) c = count s c + count t c.
Proof.
  induction s as [|a s IH]; [reflexivity|].
  rewrite append_cons. cbn [count]. rewrite IH. lia.
Qed.

Lemma count_fill (n : nat) (d c : ascii) :
  Ascii.eqb d c = false -> count (fill n d) c = 0.
Proof.
  intros Hd. induction n as [|n IH]; [reflexivity|].
  cbn [fill count]. now rewrite Hd, IH.
Qed.

End StringFacts.

(** ** [formatField] and [logLevelToString] *)

Lemma formatField_length (input : string) (width : nat) :
  String.length (formatField input width) = width.
Proof.
  unfold formatField.
  destruct (Nat.ltb_spec width (String.length input)) as [Hlt|Hge].
  - destruct (substr_split input width) as (r & _ & Hl); [lia | exact Hl].
  - rewrite length_append, length_fill. lia.
Qed.

(** C9: [formatField] returns exactly [width] characters: the first
    [width] characters of the input when the input is longer, and
    otherwise the input followed by spaces; the two examples of the
    specification evaluate as stated.  The function takes and returns
    strings only: it neither reads nor changes the [world]. *)
Theorem formatField_pads_or_truncates :
  forall (input : string) (width : nat),
    String.length (formatField input width) = width
    /\ (width < String.length input ->
        StdString.is_prefix (formatField input width) input)
    /\ (String.length input <= width ->
        formatField input width
        = input ++ StdString.fill (width - String.length input) " "%char)
    /\ formatField "abc" 15 = "abc" ++ StdString.fill 12 " "%char
    /\ formatField "a_very_long_origin_name" 15 = "a_very_long_ori".
Proof.
  intros input width. split; [apply formatField_length|].
  split; [|split; [|split; reflexivity]].
  - intros Hlt. unfold formatField, StdString.is_prefix.
    destruct (Nat.ltb_spec width (String.length input)); [|lia].
    destruct (substr_split input width) as (r & Hr & _); [lia|].
    exists r. exact Hr.
  - intros Hle. unfold formatField.
    destruct (Nat.ltb_spec width (String.length input)); [lia | reflexivity].
Qed.

Lemma formatField_pads_or_truncates_witness :
  (String.length (formatField "log_function1_of_thread" 15) = 15
   /\ StdString.is_prefix (formatField "log_function1_of_thread" 15)
        "log_function1_of_thread")
  /\ formatField "main" 15 = "main" ++ StdString.fill 11 " "%char.
Proof.
  split.
  - destruct (formatField_pads_or_truncates "log_function1_of_thread" 15)
      as (Hl & Hp & _).
    split; [exact Hl | apply Hp; cbn; lia].
  - destruct (formatField_pads_or_truncates "main" 15) as (_ & _ & Hp & _).
    apply Hp. cbn. lia.
Defined.

Lemma logLevelToString_default (l : log_level) :
  l <> DEBUG -> l <> INFO -> l <> WARNING -> l <> ERROR -> l <> FATAL ->
  logLevelToString l = "UNKNOWN".
Proof.
  unfold DEBUG, INFO, WARNING, ERROR, FATAL. intros H0 H1 H2 H3 H4.
  destruct l as [|p|p]; [congruence| |reflexivity].
  destruct p as [[p|p|]|[p|p|]|]; try reflexivity; try congruence;
    destruct p; try reflexivity; congruence.
Qed.

Lemma logLevelToString_cases (l : log_level) :
  l = DEBUG \/ l = INFO \/ l = WARNING \/ l = ERROR \/ l = FATAL
  \/ logLevelToString l = "UNKNOWN".
Proof.
  destruct (Z.eq_dec l DEBUG); [tauto|].
  destruct (Z.eq_dec l INFO); [tauto|].
  destruct (Z.eq_dec l WARNING); [tauto|].
  destruct (Z.eq_dec l ERROR); [tauto|].
  destruct (Z.eq_dec l FATAL); [tauto|].
  do 5 right. now apply logLevelToString_default.
Qed.

(** C10: [logLevelToString] is a total function; the five severities
    DEBUG, INFO, WARNING, ERROR and FATAL map to their names, which are
    non-empty and upper case, and every other value of the level type
    (the enumerator UNKNOWN and the bytes past it) maps to "UNKNOWN". *)
Theorem logLevelToString_total :
  (logLevelToString DEBUG = "DEBUG"
   /\ logLevelToString INFO = "INFO"
   /\ logLevelToString WARNING = "WARNING"
   /\ logLevelToString ERROR = "ERROR"
   /\ logLevelToString FATAL = "FATAL")
  /\ (forall l : log_level,
        logLevelToString l <> EmptyString
        /\ StdString.is_upper (logLevelToString l) = true)
  /\ (forall l : log_level,
        is_log_level l ->
        l <> DEBUG -> l <> INFO -> l <> WARNING -> l <> ERROR -> l <> FATAL ->
        logLevelToString l = "UNKNOWN").
Proof.
  split; [repeat split|]. split.
  - intros l.
    destruct (logLevelToString_cases l)
      as [-> | [-> | [-> | [-> | [-> | ->]]]]];
      (split; [vm_compute; congruence | reflexivity]).
  - intros l _. apply logLevelToString_default.
Qed.

Lemma logLevelToString_total_witness :
  logLevelToString UNKNOWN = "UNKNOWN" /\ logLevelToString 200%Z = "UNKNOWN".
Proof.
  destruct logLevelToString_total as (_ & _ & H).
  split; apply H; unfold is_log_level, UNKNOWN, DEBUG, INFO, WARNING,
    ERROR, FATAL; lia.
Defined.

(** ** What a log call does to the world *)

Lemma add_log_2_unfold (this : logging) (fun_name message : string)
    (w : world) :
  add_log_2 this fun_name message w
  = add_log this (level this) fun_name message w.
Proof. reflexivity. Qed.

Lemma add_log_cout (this : logging) (l : log_level) (f m : string)
    (w : world) :
  cout (add_log this l f m w)
  = if print_log this
    then cout w ++ log_message (getCurrentTime (clock w)) l f m
    else cout w.
Proof.
  unfold add_log, Ofstream.put, Ofstream.seekp_end.
  destruct (print_log this), (log_file this); reflexivity.
Qed.

Lemma add_log_files (this : logging) (l : log_level) (f m : string)
    (w : world) :
  files (add_log this l f m w)
  = match log_file this with
    | Some path =>
        <[path := file_content w path
                  ++ log_message (getCurrentTime (clock w)) l f m]> (files w)
    | None => files w
    end.
Proof.
  unfold add_log, Ofstream.put, Ofstream.seekp_end.
  destruct (print_log this), (log_file this); reflexivity.
Qed.

Lemma add_log_rest (this : logging) (l : log_level) (f m : string)
    (w : world) :
  cerr (add_log this l f m w) = cerr w
  /\ can_open (add_log this l f m w) = can_open w
  /\ clock (add_log this l f m w) = clock w.
Proof.
  unfold add_log, Ofstream.put, Ofstream.seekp_end.
  destruct (print_log this), (log_file this); repeat split.
Qed.

(** A logger with neither sink leaves the world as it is. *)
Lemma add_log_no_sink (this : logging) (l : log_level) (f m : string)
    (w : world) :
  print_log this = false -> log_file this = None ->
  add_log this l f m w = w.
Proof. unfold add_log. intros -> ->. reflexivity. Qed.

(** *** The record is one line

    None of the three columns brings a line terminator of its own. *)

Lemma count_formatField (text : string) (width : nat) :
  StdString.count text "010"%char = 0 ->
  StdString.count (formatField text width) "010"%char = 0.
Proof.
  intros Hz. unfold formatField.
  destruct (Nat.ltb_spec width (String.length text)) as [Hlt|Hge].
  - destruct (substr_split text width) as (r & Hr & _); [lia|].
    rewrite Hr, count_append in Hz. lia.
  - rewrite count_append, Hz. now apply count_fill.
Qed.

Lemma count_decimal (z : Z) : StdString.count (decimal z) "010"%char = 0.
Proof.
  assert (Hu : forall d,
             StdString.count (NilEmpty.string_of_uint d) "010"%char = 0)
    by (induction d; cbn; auto).
  assert (Hn : forall d,
             StdString.count (NilZero.string_of_uint d) "010"%char = 0)
    by (destruct d; try apply Hu; reflexivity).
  unfold decimal. destruct (Z.to_int z) as [d|d]; cbn; now rewrite Hn.
Qed.

Lemma count_zero_padded (w : nat) (text : string) :
  StdString.count text "010"%char = 0 ->
  StdString.count (zero_padded w text) "010"%char = 0.
Proof.
  intros Hz. unfold zero_padded. rewrite count_append, Hz.
  now rewrite count_fill.
Qed.

Lemma count_getCurrentTime (now : time_point) :
  StdString.count (getCurrentTime now) "010"%char = 0.
Proof.
  unfold getCurrentTime. cbn zeta.
  rewrite !count_append, !count_zero_padded by apply count_decimal.
  reflexivity.
Qed.

Lemma count_logLevelToString (l : log_level) :
  StdString.count (logLevelToString l) "010"%char = 0.
Proof.
  destruct (logLevelToString_cases l)
    as [-> | [-> | [-> | [-> | [-> | ->]]]]]; reflexivity.
Qed.

Lemma count_log_message (time : string) (l : log_level)
    (fun_name message : string) :
  StdString.count time "010"%char = 0 ->
  StdString.count fun_name "010"%char = 0 ->
  StdString.count message "010"%char = 0 ->
  StdString.count (log_message time l fun_name message) "010"%char = 1.
Proof.
  intros Ht Hf Hm. unfold log_message.
  rewrite !count_append, !count_formatField, Hm;
    auto using count_logLevelToString.
Qed.

(** C3: on a logger with console emission enabled, a log call with any
    level, origin and message appends to the standard output exactly one
    record, [[time] [level] [origin] message] followed by the line
    terminator, with the three bracketed columns at the fixed width; when
    origin and message hold no line terminator themselves the record is a
    single line.  The stored level plays no part: changing it leaves the
    effect of the three-argument call as it is, and the two-argument call
    emits its record whatever the stored level is. *)
Theorem add_log_never_suppresses :
  forall (this : logging) (lvl : log_level) (fun_name message : string)
         (w : world),
    print_log this = true ->
    cout (add_log this lvl fun_name message w)
    = cout w
      ++ ("[" ++ formatField (getCurrentTime (clock w)) 15 ++ "] "
          ++ "[" ++ formatField (logLevelToString lvl) 15 ++ "] "
          ++ "[" ++ formatField fun_name 15 ++ "] "
          ++ message ++ endl)
    /\ (forall stored : log_level,
          add_log (set_log_level this stored) lvl fun_name message w
          = add_log this lvl fun_name message w)
    /\ cout (add_log_2 this fun_name message w)
       = cout w
         ++ log_message (getCurrentTime (clock w)) (level this)
              fun_name message
    /\ (StdString.count fun_name "010"%char = 0 ->
        StdString.count message "010"%char = 0 ->
        forall l : log_level,
          StdString.count
            (log_message (getCurrentTime (clock w)) l fun_name message)
            "010"%char = 1).
Proof.
  intros this lvl fun_name message w Hp. split; [|split; [|split]].
  - rewrite add_log_cout, Hp. reflexivity.
  - intros stored. reflexivity.
  - rewrite add_log_2_unfold, add_log_cout, Hp. reflexivity.
  - intros Hf Hm l. apply count_log_message; auto using count_getCurrentTime.
Qed.

(** C6: the two-argument [add_log] has the effect of the three-argument
    one called with the stored level, in every logger state; after
    [set_log_level L] that level is [L]. *)
Theorem add_log_2_logs_at_stored_level :
  forall (this : logging) (fun_name message : string) (w : world),
    invoke (Add_log_2 fun_name message) this w
    = invoke (Add_log (level this) fun_name message) this w
    /\ (forall L : log_level,
          level (set_log_level this L) = L
          /\ invoke (Add_log_2 fun_name message) (set_log_level this L) w
             = invoke (Add_log L fun_name message) (set_log_level this L) w).
Proof.
  intros this fun_name message w. split.
  - cbn [invoke]. now rewrite add_log_2_unfold.
  - intros L. split; [reflexivity|].
    cbn [invoke]. now rewrite add_log_2_unfold.
Qed.

(** ** The constructor and [change_log_file] *)

Lemma named_file_find_last_of (path : string) :
  match StdString.find_last_of path "."%char with
  | None => path ++ ".log"
  | Some _ => path
  end = named_file path.
Proof.
  unfold named_file.
  destruct (StdString.find_last_of path "."%char) as [i|] eqn:E.
  - destruct (StdString.contains path "."%char) eqn:C; [reflexivity|].
    apply find_last_of_contains in C. congruence.
  - apply find_last_of_contains in E. now rewrite E.
Qed.

(** The constructor on a non-empty path, by the outcome of the open. *)
Lemma logging_ctor_nonempty (path : string) (flag : bool)
    (indeterminate : log_level) (w : world) :
  path <> EmptyString ->
  logging_ctor path flag indeterminate w
  = if can_open w (named_file path)
    then
      let this :=
        mk_logging flag path (Some (named_file path)) indeterminate in
      (this,
       add_log this UNKNOWN "New logger" banner
         (set_files (<[named_file path := file_content w (named_file path)]>
                       (files w)) w))
    else
      let this := mk_logging flag path None indeterminate in
      (this,
       add_log this UNKNOWN "New logger" banner
         (cerr_put ("Can't open log file " ++ named_file path ++ endl) w)).
Proof.
  intros Hne. unfold logging_ctor.
  rewrite (empty_false _ Hne). cbn [negb log_file].
  rewrite named_file_find_last_of.
  unfold Ofstream.open, Ofstream.closed.
  destruct (can_open w (named_file path)); reflexivity.
Qed.

Lemma logging_ctor_empty (flag : bool) (indeterminate : log_level)
    (w : world) :
  logging_ctor EmptyString flag indeterminate w
  = (mk_logging flag EmptyString None indeterminate,
     add_log (mk_logging flag EmptyString None indeterminate) UNKNOWN
       "New logger" banner w).
Proof. reflexivity. Qed.

(** [change_log_file] on a non-empty path, by the outcome of the open. *)
Lemma change_log_file_nonempty (this : logging) (path : string) (w : world) :
  path <> EmptyString ->
  change_log_file this path w
  = if can_open w (named_file path)
    then
      (mk_logging (print_log this) (named_file path)
         (Some (named_file path)) (level this),
       set_files (<[named_file path := file_content w (named_file path)]>
                    (files w)) w)
    else
      (mk_logging false (named_file path) None (level this),
       cerr_put ("Can't open log file " ++ named_file path ++ endl) w).
Proof.
  intros Hne. unfold change_log_file.
  destruct this as [flag name stream lvl].
  pose proof (named_file_find_last_of path) as Hn.
  unfold set_print_log, set_log_file, set_filename, Ofstream.close,
    Ofstream.open, Ofstream.is_open.
  destruct stream as [old|]; cbn [filename log_file print_log level];
    rewrite (empty_false _ Hne); cbn [negb];
    destruct (StdString.find_last_of path "."%char) as [i|];
    cbn [filename log_file print_log level];
    rewrite <- Hn; destruct (can_open w _); reflexivity.
Qed.

(** ** Sequences of calls that keep the file *)

Lemma run_cons (e : event) (es : list event) (s : logging * world) :
  run (e :: es) s = run es (step e s).
Proof. reflexivity. Qed.

Lemma step_keeps_sinks (e : event) (s : logging * world) :
  keeps_file e = true ->
  print_log (step e s).1 = print_log s.1
  /\ log_file (step e s).1 = log_file s.1
  /\ can_open (step e s).2 = can_open s.2.
Proof.
  destruct s as [this w].
  destruct e as [[l f m|f m|l|n]|t]; cbn; intros Hk;
    try discriminate; repeat split; apply add_log_rest.
Qed.

Lemma run_keeps_sinks (es : list event) (s : logging * world) :
  forallb keeps_file es = true ->
  print_log (run es s).1 = print_log s.1
  /\ log_file (run es s).1 = log_file s.1
  /\ can_open (run es s).2 = can_open s.2.
Proof.
  revert s. induction es as [|e es IH]; intros s Hk; [repeat split|].
  cbn in Hk. apply andb_prop in Hk as [He Hes].
  destruct (step_keeps_sinks e s He) as (Hp & Hf & Ho).
  destruct (IH (step e s) Hes) as (Hp' & Hf' & Ho').
  rewrite run_cons, Hp', Hf', Ho'. auto.
Qed.

(** With neither sink, a call emits nothing. *)
Lemma step_no_sink (e : event) (s : logging * world) :
  keeps_file e = true ->
  print_log s.1 = false -> log_file s.1 = None ->
  cout (step e s).2 = cout s.2
  /\ cerr (step e s).2 = cerr s.2
  /\ files (step e s).2 = files s.2.
Proof.
  destruct s as [this w]. cbn [fst snd].
  destruct e as [[l f m|f m|l|n]|t]; cbn; intros Hk Hp Hf;
    try discriminate; rewrite ?add_log_2_unfold, ?add_log_no_sink;
    auto.
Qed.

Lemma run_no_sink (es : list event) (s : logging * world) :
  forallb keeps_file es = true ->
  print_log s.1 = false -> log_file s.1 = None ->
  cout (run es s).2 = cout s.2
  /\ cerr (run es s).2 = cerr s.2
  /\ files (run es s).2 = files s.2.
Proof.
  revert s. induction es as [|e es IH]; intros s Hk Hp Hf; [repeat split|].
  cbn in Hk. apply andb_prop in Hk as [He Hes].
  destruct (step_keeps_sinks e s He) as (Hp' & Hf' & _).
  destruct (step_no_sink e s He Hp Hf) as (Ho & He' & Hfs).
  destruct (IH (step e s) Hes) as (Ho' & He'' & Hfs');
    [congruence | congruence |].
  rewrite run_cons, Ho', He'', Hfs'. auto.
Qed.

(** A call writes to no file but the one the stream is attached to. *)
Lemma step_other_files (e : event) (s : logging * world) (q : string) :
  keeps_file e = true ->
  log_file s.1 <> Some q ->
  files (step e s).2 !! q = files s.2 !! q.
Proof.
  destruct s as [this w]. cbn [fst snd].
  destruct e as [[l f m|f m|l|n]|t]; cbn; intros Hk Hq;
    try discriminate; try reflexivity;
    rewrite ?add_log_2_unfold, add_log_files;
    (destruct (log_file this) as [p|]; [|reflexivity]);
    apply lookup_insert_ne; congruence.
Qed.

Lemma run_other_files (es : list event) (s : logging * world) (q : string) :
  forallb keeps_file es = true ->
  log_file s.1 <> Some q ->
  files (run es s).2 !! q = files s.2 !! q.
Proof.
  revert s. induction es as [|e es IH]; intros s Hk Hq; [reflexivity|].
  cbn in Hk. apply andb_prop in Hk as [He Hes].
  destruct (step_keeps_sinks e s He) as (_ & Hf & _).
  rewrite run_cons, IH; [now apply step_other_files | exact Hes | congruence].
Qed.

(** A log call appends its record to the attached file. *)
Lemma invoke_appends (m : method) (this : logging) (w : world)
    (path : string) :
  is_log_call m = true ->
  log_file this = Some path ->
  files (invoke m this w).2 !! path
  = Some (file_content w path ++ emitted m this w).
Proof.
  destruct m as [l f msg|f msg|l|n]; cbn; intros Hm Hf; try discriminate;
    rewrite ?add_log_2_unfold, add_log_files, Hf;
    apply lookup_insert_eq.
Qed.

Lemma add_log_never_suppresses_witness :
  cout (add_log app_logger 77%Z "main" "started" open_world)
  = "[22:02:51.865   ] [UNKNOWN        ] [main           ] started" ++ endl
  /\ StdString.count
       (log_message (getCurrentTime (clock open_world)) 77%Z "main" "started")
       "010"%char = 1.
Proof.
  destruct (add_log_never_suppresses app_logger 77%Z "main" "started"
              open_world eq_refl) as (H & _ & _ & Hone).
  split; [exact H | apply Hone; reflexivity].
Defined.

(** ** Construction when the open fails *)

(** On a failed open the constructor keeps the console flag it was given,
    leaves the stream closed and writes the diagnostic. *)
Lemma logging_ctor_open_failure (path : string) (flag : bool)
    (indeterminate : log_level) (w : world) :
  path <> EmptyString ->
  can_open w (named_file path) = false ->
  let s := logging_ctor path flag indeterminate w in
  print_log s.1 = flag
  /\ log_file s.1 = None
  /\ cerr s.2 = cerr w ++ "Can't open log file " ++ named_file path ++ endl
  /\ files s.2 = files w
  /\ cout s.2
     = if flag
       then cout w ++ log_message (getCurrentTime (clock w)) UNKNOWN
                        "New logger" banner
       else cout w.
Proof.
  intros Hne Hno. cbn zeta.
  rewrite (logging_ctor_nonempty _ _ _ _ Hne), Hno. cbn [fst snd].
  rewrite add_log_cout, add_log_files.
  destruct (add_log_rest (mk_logging flag path None indeterminate) UNKNOWN
              "New logger" banner
              (cerr_put ("Can't open log file " ++ named_file path ++ endl) w))
    as (He & _ & _).
  rewrite He. repeat split.
Qed.

(** C1: when the open fails the constructor does write the path-specific
    diagnostic and leave the file sink absent, and it returns normally,
    but it does not force console emission on.  Evaluated on the path
    "nolog" with the console flag false, on a file system where no open
    succeeds: the stored flag is still false, the diagnostic names
    "nolog.log", and the bootstrap record reached neither the standard
    output nor a file. *)
Theorem logging_ctor_failed_open_leaves_console_off :
  let s := logging_ctor "nolog" false DEBUG sealed_world in
  print_log s.1 = false
  /\ log_file s.1 = None
  /\ cerr s.2 = "Can't open log file nolog.log" ++ endl
  /\ cout s.2 = EmptyString
  /\ files s.2 = ∅.
Proof. repeat split. Qed.

(** C4: constructing with a non-empty path that cannot be opened and with
    the console flag false yields a logger without any sink: the stored
    flag is the false that was passed, the stream is closed, the
    diagnostic went to the error stream, and neither the bootstrap record
    nor any later log call (of either overload, with any level changes and
    any passing of time in between) adds anything to the standard output
    or to any file. *)
Theorem logging_ctor_failure_with_console_off_is_mute :
  forall (path : string) (indeterminate : log_level) (w : world)
         (es : list event),
    path <> EmptyString ->
    can_open w (named_file path) = false ->
    forallb keeps_file es = true ->
    let s := logging_ctor path false indeterminate w in
    let s' := run es s in
    (print_log s.1 = false /\ log_file s.1 = None
     /\ cout s.2 = cout w /\ files s.2 = files w)
    /\ (print_log s'.1 = false /\ log_file s'.1 = None
        /\ cout s'.2 = cout w /\ files s'.2 = files w)
    /\ cerr s'.2
       = cerr w ++ "Can't open log file " ++ named_file path ++ endl.
Proof.
  intros path indeterminate w es Hne Hno Hes s s'.
  destruct (logging_ctor_open_failure path false indeterminate w Hne Hno)
    as (Hp & Hf & He & Hfs & Ho).
  fold s in Hp, Hf, He, Hfs, Ho.
  destruct (run_keeps_sinks es s Hes) as (Hp' & Hf' & _).
  destruct (run_no_sink es s Hes Hp Hf) as (Ho' & He' & Hfs').
  fold s' in Hp', Hf', Ho', He', Hfs'.
  repeat split; congruence.
Qed.

Lemma logging_ctor_failure_with_console_off_is_mute_witness :
  let s' :=
    run [Call (Add_log ERROR "worker" "disk full"); Tick sample_time;
         Call (Set_log_level FATAL); Call (Add_log_2 "worker" "again")]
      (logging_ctor "nolog" false DEBUG sealed_world) in
  cout s'.2 = EmptyString /\ files s'.2 = ∅.
Proof.
  destruct (logging_ctor_failure_with_console_off_is_mute "nolog" DEBUG
              sealed_world
              [Call (Add_log ERROR "worker" "disk full"); Tick sample_time;
               Call (Set_log_level FATAL); Call (Add_log_2 "worker" "again")])
    as (_ & (_ & _ & Ho & Hf) & _).
  - discriminate.
  - reflexivity.
  - reflexivity.
  - split; [exact Ho | exact Hf].
Defined.

(** ** [change_log_file] when the open fails *)

Lemma change_log_file_open_failure (this : logging) (path : string)
    (w : world) :
  path <> EmptyString ->
  can_open w (named_file path) = false ->
  let s := change_log_file this path w in
  print_log s.1 = false
  /\ log_file s.1 = None
  /\ cerr s.2 = cerr w ++ "Can't open log file " ++ named_file path ++ endl
  /\ cout s.2 = cout w
  /\ files s.2 = files w.
Proof.
  intros Hne Hno. cbn zeta.
  rewrite (change_log_file_nonempty _ _ _ Hne), Hno. repeat split.
Qed.

(** C2: when the reopen fails, [change_log_file] writes the diagnostic and
    leaves the file sink absent, but console emission ends up disabled,
    not enabled.  Evaluated on a logger that prints to the console and
    writes to "app.log", asked to change to "nolog" on a file system where
    no open succeeds: the stored flag has become false, the stream is
    closed, and a following log call changes nothing. *)
Theorem change_log_file_failed_open_turns_console_off :
  let s := change_log_file app_logger "nolog" sealed_world in
  print_log app_logger = true
  /\ print_log s.1 = false
  /\ log_file s.1 = None
  /\ cerr s.2 = "Can't open log file nolog.log" ++ endl
  /\ add_log s.1 ERROR "main" "lost" s.2 = s.2.
Proof. repeat split. Qed.

(** ** Which file is opened, and where the records go *)

(** C8: for a non-empty path, the constructor and [change_log_file] open
    the path itself when it contains a ['.'] and the path followed by
    ".log" when it does not: that is the file the stream is attached to
    when the open succeeds (and the file then exists), and no file is
    attached when it fails. *)
Theorem opened_file_name :
  forall (path : string) (flag : bool) (indeterminate : log_level)
         (this : logging) (w : world),
    path <> EmptyString ->
    let name :=
      if StdString.contains path "."%char then path else path ++ ".log" in
    let built := logging_ctor path flag indeterminate w in
    let changed := change_log_file this path w in
    log_file built.1 = (if can_open w name then Some name else None)
    /\ log_file changed.1 = (if can_open w name then Some name else None)
    /\ (can_open w name = true ->
        is_Some (files built.2 !! name) /\ is_Some (files changed.2 !! name)).
Proof.
  intros path flag indeterminate this w Hne name built changed.
  subst built changed. fold (named_file path) in name. subst name.
  rewrite (logging_ctor_nonempty _ _ _ _ Hne),
    (change_log_file_nonempty _ _ _ Hne).
  destruct (can_open w (named_file path)); cbn [fst snd];
    (split; [reflexivity|split; [reflexivity|]]); [|discriminate].
  intros _. rewrite add_log_files. cbn [log_file files set_files].
  rewrite !lookup_insert_eq. split; eexists; reflexivity.
Qed.

Lemma opened_file_name_witness :
  (log_file (logging_ctor "report" true DEBUG open_world).1
   = Some "report.log"
   /\ log_file (change_log_file app_logger "report" open_world).1
      = Some "report.log")
  /\ (log_file (logging_ctor "report.txt" true DEBUG open_world).1
      = Some "report.txt"
      /\ log_file (change_log_file app_logger "report.txt" open_world).1
         = Some "report.txt").
Proof.
  split.
  - destruct (opened_file_name "report" true DEBUG app_logger open_world)
      as (Hb & Hc & _); [discriminate|].
    split; [exact Hb | exact Hc].
  - destruct (opened_file_name "report.txt" true DEBUG app_logger open_world)
      as (Hb & Hc & _); [discriminate|].
    split; [exact Hb | exact Hc].
Defined.

(** C7: after [change_log_file "other"] whose open succeeds, the stream is
    attached to "other.log" and to nothing else, and stays so through any
    later calls that do not change the file again; each later log call
    appends its record at the end of "other.log", and every other file,
    the one that was open before included, keeps the content it had when
    the file was changed. *)
Theorem change_log_file_redirects_records :
  forall (this : logging) (w : world) (es : list event) (m : method),
    can_open w "other.log" = true ->
    forallb keeps_file es = true ->
    is_log_call m = true ->
    let s1 := change_log_file this "other" w in
    let s2 := run es s1 in
    let s3 := invoke m s2.1 s2.2 in
    log_file s1.1 = Some "other.log"
    /\ log_file s2.1 = Some "other.log"
    /\ files s3.2 !! "other.log"
       = Some (file_content s2.2 "other.log" ++ emitted m s2.1 s2.2)
    /\ (forall q : string,
          q <> "other.log" ->
          files s3.2 !! q = files w !! q).
Proof.
  intros this w es m Hopen Hes Hm s1 s2 s3.
  assert (H1 : log_file s1.1 = Some "other.log"
               /\ forall q, q <> "other.log" -> files s1.2 !! q = files w !! q).
  { subst s1. rewrite change_log_file_nonempty by discriminate.
    change (named_file "other") with "other.log". rewrite Hopen.
    split; [reflexivity|]. intros q Hq. cbn [snd files set_files].
    apply lookup_insert_ne. congruence. }
  destruct H1 as [H1 Hw].
  destruct (run_keeps_sinks es s1 Hes) as (_ & H2 & _). fold s2 in H2.
  rewrite H1 in H2.
  split; [exact H1|]. split; [exact H2|]. split.
  - subst s3. now apply invoke_appends.
  - intros q Hq.
    assert (Hk : keeps_file (Call m) = true)
      by (destruct m; [reflexivity|reflexivity|discriminate|discriminate]).
    pose proof (step_other_files (Call m) s2 q Hk) as H3.
    cbn [step] in H3. fold s3 in H3.
    rewrite H3 by congruence.
    subst s2. rewrite run_other_files by (exact Hes || congruence).
    now apply Hw.
Qed.

Lemma change_log_file_redirects_records_witness :
  let s0 := logging_ctor "app" true DEBUG open_world in
  let s1 := change_log_file s0.1 "other" s0.2 in
  let s2 := run [Call (Set_log_level ERROR); Tick sample_time;
                 Call (Add_log_2 "worker" "first")] s1 in
  let s3 := invoke (Add_log INFO "worker" "second") s2.1 s2.2 in
  files s3.2 !! "other.log"
  = Some (file_content s2.2 "other.log"
          ++ emitted (Add_log INFO "worker" "second") s2.1 s2.2)
  /\ files s3.2 !! "app.log" = files s0.2 !! "app.log".
Proof.
  destruct (change_log_file_redirects_records
              (logging_ctor "app" true DEBUG open_world).1
              (logging_ctor "app" true DEBUG open_world).2
              [Call (Set_log_level ERROR); Tick sample_time;
               Call (Add_log_2 "worker" "first")]
              (Add_log INFO "worker" "second"))
    as (_ & _ & Ha & Hq); [reflexivity | reflexivity | reflexivity |].
  split; [exact Ha | apply Hq; discriminate].
Defined.

(** ** The single instance *)

Lemma get_instance_existing (f : string) (b : bool) (i : log_level)
    (st : process) (p : addr) :
  instance st = Some p -> get_instance f b i st = (Some p, st).
Proof.
  intros Hp. unfold get_instance. rewrite Hp. cbn beta iota zeta.
  now rewrite Hp.
Qed.

Lemma get_instance_first (f : string) (b : bool) (i : log_level)
    (st : process) :
  instance st = None ->
  get_instance f b i st
  = (Some (fresh (dom (heap st))),
     mk_process
       (<[fresh (dom (heap st)) := (logging_ctor f b i (env st)).1]> (heap st))
       (Some (fresh (dom (heap st))))
       (logging_ctor f b i (env st)).2).
Proof.
  unfold get_instance, new_logging, unique_ptr_reset. intros Hnone.
  rewrite Hnone. destruct (logging_ctor f b i (env st)) as [obj w].
  reflexivity.
Qed.

(** Whatever the state, the call returns the pointer that [instance] holds
    afterwards, and that pointer is not null. *)
Lemma get_instance_result (f : string) (b : bool) (i : log_level)
    (st : process) :
  exists p : addr,
    (get_instance f b i st).1 = Some p
    /\ instance (get_instance f b i st).2 = Some p.
Proof.
  destruct (instance st) as [p|] eqn:E.
  - exists p. rewrite (get_instance_existing _ _ _ _ _ E). auto.
  - eexists. rewrite (get_instance_first _ _ _ _ E). split; reflexivity.
Qed.

Lemma act_keeps_instance (a : action) (st : process) (p : addr) :
  instance st = Some p -> instance (act a st) = Some p.
Proof.
  intros Hp. destruct a as [f b i|e]; cbn [act].
  - now rewrite (get_instance_existing _ _ _ _ _ Hp).
  - unfold on_instance. rewrite Hp.
    destruct (heap st !! p) as [obj|]; [|exact Hp].
    destruct (step e (obj, env st)). reflexivity.
Qed.

Lemma execute_keeps_instance (acts : list action) (st : process) (p : addr) :
  instance st = Some p -> instance (execute acts st) = Some p.
Proof.
  revert st. induction acts as [|a acts IH]; intros st Hp; [exact Hp|].
  apply (IH (act a st)). now apply act_keeps_instance.
Qed.

Lemma act_sole_owner (a : action) (st : process) :
  sole_owner st -> sole_owner (act a st).
Proof.
  unfold sole_owner. intros Hs.
  destruct (instance st) as [p|] eqn:E.
  - rewrite (act_keeps_instance a st p E).
    destruct a as [f b i|e]; cbn [act].
    + now rewrite (get_instance_existing _ _ _ _ _ E).
    + unfold on_instance. rewrite E.
      destruct (heap st !! p) as [obj|]; [|exact Hs].
      destruct (step e (obj, env st)) as [obj' w']. cbn.
      rewrite dom_insert_L, Hs. apply union_idemp_L.
  - destruct a as [f b i|e]; cbn [act].
    + rewrite (get_instance_first _ _ _ _ E). cbn [snd instance heap].
      rewrite Hs, dom_insert_L, dom_empty_L. apply union_empty_r_L.
    + unfold on_instance. rewrite E.
      destruct e; cbn [instance heap]; rewrite ?E; exact Hs.
Qed.

Lemma execute_sole_owner (acts : list action) (st : process) :
  sole_owner st -> sole_owner (execute acts st).
Proof.
  revert st. induction acts as [|a acts IH]; intros st Hs; [exact Hs|].
  apply (IH (act a st)). now apply act_sole_owner.
Qed.

Lemma sole_owner_size (st : process) :
  sole_owner st -> size (heap st) <= 1.
Proof.
  unfold sole_owner. intros Hs. rewrite <- size_dom.
  destruct (instance st) as [p|].
  - rewrite Hs, size_singleton. lia.
  - rewrite Hs, dom_empty_L, size_empty. lia.
Qed.

(** C5: any two calls of [get_instance], whatever their arguments and
    whatever the client does in between, return the same non-null
    pointer, and the later call leaves the whole process state, the object
    included, as it found it.  On a process that has no instance yet the
    call builds the object from its own arguments.  From the start of the
    process on, the heap never holds more than one [logging] object. *)
Theorem get_instance_returns_the_one_instance :
  forall (f1 : string) (b1 : bool) (i1 : log_level)
         (f2 : string) (b2 : bool) (i2 : log_level)
         (acts : list action) (st : process),
    let r1 := get_instance f1 b1 i1 st in
    let st' := execute acts r1.2 in
    let r2 := get_instance f2 b2 i2 st' in
    (is_Some r1.1 /\ r2.1 = r1.1 /\ r2.2 = st')
    /\ (forall w : world,
          let r := get_instance f1 b1 i1 (process_start w) in
          exists p : addr,
            r.1 = Some p
            /\ heap r.2 = {[p := (logging_ctor f1 b1 i1 w).1]}
            /\ env r.2 = (logging_ctor f1 b1 i1 w).2)
    /\ (forall w : world,
          size (heap (execute acts (process_start w))) <= 1).
Proof.
  intros f1 b1 i1 f2 b2 i2 acts st r1 st' r2. split; [|split].
  - destruct (get_instance_result f1 b1 i1 st) as (p & Hr & Hi).
    fold r1 in Hr, Hi.
    pose proof (execute_keeps_instance acts r1.2 p Hi) as Hi'.
    fold st' in Hi'. subst r2.
    rewrite (get_instance_existing _ _ _ _ _ Hi'), Hr.
    split; [eexists; reflexivity | split; reflexivity].
  - intros w r. subst r.
    rewrite get_instance_first by reflexivity.
    eexists. split; [reflexivity|]. split; reflexivity.
  - intros w. apply sole_owner_size, execute_sole_owner. reflexivity.
Qed.

(** The usage of the README: [logger::log] is initialised before [main],
    so the later [get_instance("app.log", true)] returns that same logger,
    still named "app", and opens nothing. *)
Example readme_get_instance (i0 i1 : log_level) (w : world) :
  let started := logger_log i0 w in
  get_instance "app.log" true i1 started.2 = (started.1, started.2).
Proof.
  cbn zeta. unfold logger_log.
  destruct (get_instance_result "app" true i0 (process_start w))
    as (p & Hr & Hi).
  now rewrite (get_instance_existing _ _ _ _ _ Hi), Hr.
Qed.

(** * Further properties of the code *)

(** ** The shape of the time stamp *)

Lemma zero_padded_two (n : nat) :
  n < 100 -> zero_padded 2 (decimal (Z.of_nat n)) = two_digits n.
Proof.
  intros Hn.
  assert (Hall : forallb
                   (fun k => String.eqb (zero_padded 2 (decimal (Z.of_nat k)))
                               (two_digits k))
                   (seq 0 100) = true) by (vm_compute; reflexivity).
  rewrite forallb_forall in Hall.
  apply String.eqb_eq, Hall, in_seq. lia.
Qed.

Lemma zero_padded_three (n : nat) :
  n < 1000 -> zero_padded 3 (decimal (Z.of_nat n)) = three_digits n.
Proof.
  intros Hn.
  assert (Hall : forallb
                   (fun k => String.eqb (zero_padded 3 (decimal (Z.of_nat k)))
                               (three_digits k))
                   (seq 0 1000) = true) by (vm_compute; reflexivity).
  rewrite forallb_forall in Hall.
  apply String.eqb_eq, Hall, in_seq. lia.
Qed.

(** X1: for a clock at or after the epoch whose local time has
    [tm_hour < 24], [tm_min < 60] and [tm_sec <= 60], [getCurrentTime]
    returns the twelve characters HH:MM:SS.mmm, each field with its leading
    zeros, the last one being the milliseconds within the second; so the
    time column of a record is that text followed by three spaces. *)
Theorem getCurrentTime_shape :
  forall now : time_point,
    (0 <= since_epoch_ms now)%Z ->
    tm_hour now < 24 -> tm_min now < 60 -> tm_sec now <= 60 ->
    getCurrentTime now
    = two_digits (tm_hour now) ++ ":" ++ two_digits (tm_min now) ++ ":"
      ++ two_digits (tm_sec now) ++ "."
      ++ three_digits (Z.to_nat (since_epoch_ms now mod 1000))
    /\ String.length (getCurrentTime now) = 12
    /\ formatField (getCurrentTime now) default_width
       = getCurrentTime now ++ "   ".
Proof.
  intros now Hms Hh Hm Hs.
  assert (Heq : getCurrentTime now
                = two_digits (tm_hour now) ++ ":" ++ two_digits (tm_min now)
                  ++ ":" ++ two_digits (tm_sec now) ++ "."
                  ++ three_digits (Z.to_nat (since_epoch_ms now mod 1000))).
  { unfold getCurrentTime. cbn zeta.
    rewrite !zero_padded_two by lia.
    rewrite Z.rem_mod_nonneg by lia.
    pose proof (Z.mod_pos_bound (since_epoch_ms now) 1000 ltac:(lia)) as Hb.
    rewrite <- (Z2Nat.id (since_epoch_ms now mod 1000)) at 1 by lia.
    rewrite zero_padded_three by lia. reflexivity. }
  assert (Hlen : String.length (getCurrentTime now) = 12).
  { rewrite Heq. rewrite !length_append. reflexivity. }
  split; [exact Heq|]. split; [exact Hlen|].
  unfold formatField, default_width. rewrite Hlen. reflexivity.
Qed.

Lemma getCurrentTime_shape_witness :
  getCurrentTime sample_time = "22:02:51.865"
  /\ formatField (getCurrentTime sample_time) default_width
     = "22:02:51.865   ".
Proof.
  destruct (getCurrentTime_shape sample_time) as (He & _ & Hf);
    [cbn; lia | cbn; lia | cbn; lia | cbn; lia |].
  split; [exact He | exact Hf].
Defined.

(** ** The layout of a record *)

(** X2: whatever the time text, the level and the origin, the text that
    precedes the message in a record has exactly 54 characters, so on a
    logger with console emission enabled every message starts in the same
    column of the standard output, directly after that header, and is
    followed by the line terminator only. *)
Theorem add_log_fixed_header :
  forall (this : logging) (lvl : log_level) (fun_name message : string)
         (w : world),
    print_log this = true ->
    (exists header : string,
       String.length header = 54
       /\ cout (add_log this lvl fun_name message w)
          = cout w ++ header ++ message ++ endl)
    /\ (exists header : string,
          String.length header = 54
          /\ cout (add_log_2 this fun_name message w)
             = cout w ++ header ++ message ++ endl).
Proof.
  assert (Hgen : forall this l fun_name message w,
             print_log this = true ->
             exists header : string,
               String.length header = 54
               /\ cout (add_log this l fun_name message w)
                  = cout w ++ header ++ message ++ endl).
  { intros this l fun_name message w Hp.
    exists ("[" ++ formatField (getCurrentTime (clock w)) default_width
            ++ "] " ++ "[" ++ formatField (logLevelToString l) default_width
            ++ "] " ++ "[" ++ formatField fun_name default_width ++ "] ").
    split.
    - rewrite !length_append, !formatField_length. reflexivity.
    - rewrite add_log_cout, Hp. unfold log_message.
      now rewrite !append_assoc. }
  intros this lvl fun_name message w Hp. split.
  - now apply Hgen.
  - rewrite add_log_2_unfold. now apply Hgen.
Qed.

Lemma add_log_fixed_header_witness :
  exists header : string,
    String.length header = 54
    /\ cout (add_log app_logger WARNING "a_very_long_origin_name" "low disk"
               open_world)
       = cout open_world ++ header ++ "low disk" ++ endl.
Proof.
  destruct (add_log_fixed_header app_logger WARNING "a_very_long_origin_name"
              "low disk" open_world eq_refl) as [H _].
  exact H.
Defined.

(** X3: no level name is longer than the column: for every value of the
    level type the level column of a record is the complete name given by
    [logLevelToString], followed by at least eight spaces. *)
Theorem level_column_is_never_cut :
  forall l : log_level,
    String.length (logLevelToString l) <= 7
    /\ formatField (logLevelToString l) default_width
       = logLevelToString l
         ++ StdString.fill (15 - String.length (logLevelToString l)) " "%char.
Proof.
  intros l.
  destruct (logLevelToString_cases l)
    as [-> | [-> | [-> | [-> | [-> | ->]]]]]; split; cbn; (lia || reflexivity).
Qed.

(** ** What is written stays written *)

Lemma is_prefix_refl (s : string) : StdString.is_prefix s s.
Proof. exists EmptyString. now rewrite append_empty_r. Qed.

Lemma is_prefix_trans (s t u : string) :
  StdString.is_prefix s t -> StdString.is_prefix t u ->
  StdString.is_prefix s u.
Proof.
  intros [r ->] [r' ->]. exists (r ++ r'). apply append_assoc.
Qed.

Lemma is_prefix_append (s t : string) : StdString.is_prefix s (s ++ t).
Proof. exists t. reflexivity. Qed.

Lemma file_content_insert (w : world) (path q content : string) :
  file_content (set_files (<[path := content]> (files w)) w) q
  = if decide (path = q) then content else file_content w q.
Proof.
  unfold file_content. cbn [files set_files].
  rewrite lookup_insert. destruct (decide (path = q)); reflexivity.
Qed.

Lemma grows_refl (w : world) : grows w w.
Proof.
  repeat split; try apply is_prefix_refl. exact id.
Qed.

Lemma grows_trans (w1 w2 w3 : world) :
  grows w1 w2 -> grows w2 w3 -> grows w1 w3.
Proof.
  intros (Ho & He & Hf) (Ho' & He' & Hf').
  split; [eapply is_prefix_trans; eassumption|].
  split; [eapply is_prefix_trans; eassumption|].
  intros q. destruct (Hf q) as [Hc Hs], (Hf' q) as [Hc' Hs'].
  split; [eapply is_prefix_trans; eassumption | auto].
Qed.

Lemma grows_cout_put (text : string) (w : world) : grows w (cout_put text w).
Proof.
  split; [apply is_prefix_append|]. split; [apply is_prefix_refl|].
  intros q. split; [apply is_prefix_refl | exact id].
Qed.

Lemma grows_cerr_put (text : string) (w : world) : grows w (cerr_put text w).
Proof.
  split; [apply is_prefix_refl|]. split; [apply is_prefix_append|].
  intros q. split; [apply is_prefix_refl | exact id].
Qed.

Lemma grows_set_clock (t : time_point) (w : world) : grows w (set_clock t w).
Proof.
  split; [apply is_prefix_refl|]. split; [apply is_prefix_refl|].
  intros q. split; [apply is_prefix_refl | exact id].
Qed.

(** Replacing the content of one file by an extension of it. *)
Lemma grows_extend_file (w : world) (path text : string) :
  grows w (set_files (<[path := file_content w path ++ text]> (files w)) w).
Proof.
  split; [apply is_prefix_refl|]. split; [apply is_prefix_refl|].
  intros q. split.
  - rewrite file_content_insert. destruct (decide (path = q)) as [->|];
      [apply is_prefix_append | apply is_prefix_refl].
  - cbn [files set_files]. rewrite lookup_insert.
    destruct (decide (path = q)); [eauto | exact id].
Qed.

Lemma grows_put (f : Ofstream.t) (text : string) (w : world) :
  grows w (Ofstream.put f text w).
Proof.
  destruct f as [path|]; [apply grows_extend_file | apply grows_refl].
Qed.

Lemma grows_add_log (this : logging) (l : log_level) (f m : string)
    (w : world) :
  grows w (add_log this l f m w).
Proof.
  unfold add_log, Ofstream.seekp_end.
  destruct (print_log this), (Ofstream.is_open (log_file this));
    eauto using grows_trans, grows_cout_put, grows_put, grows_refl.
Qed.

Lemma grows_change_log_file (this : logging) (path : string) (w : world) :
  grows w (change_log_file this path w).2.
Proof.
  destruct path as [|a path].
  - unfold change_log_file. cbn. apply grows_refl.
  - rewrite change_log_file_nonempty by discriminate.
    destruct (can_open w _); cbn [snd]; [|apply grows_cerr_put].
    rewrite <- (append_empty_r (file_content w _)) at 1.
    apply grows_extend_file.
Qed.

Lemma grows_logging_ctor (path : string) (flag : bool) (i : log_level)
    (w : world) :
  grows w (logging_ctor path flag i w).2.
Proof.
  destruct path as [|a path].
  - rewrite logging_ctor_empty. apply grows_add_log.
  - rewrite logging_ctor_nonempty by discriminate.
    destruct (can_open w _); cbn [snd];
      (eapply grows_trans; [|apply grows_add_log]);
      [|apply grows_cerr_put].
    rewrite <- (append_empty_r (file_content w _)) at 1.
    apply grows_extend_file.
Qed.

Lemma grows_step (e : event) (s : logging * world) :
  grows s.2 (step e s).2.
Proof.
  destruct s as [this w].
  destruct e as [[l f m|f m|l|n]|t]; cbn [step invoke fst snd].
  - apply grows_add_log.
  - rewrite add_log_2_unfold. apply grows_add_log.
  - apply grows_refl.
  - apply grows_change_log_file.
  - apply grows_set_clock.
Qed.

(** X4: nothing the logger does takes back what was written.  Through the
    constructor and through any sequence of log calls, level changes and
    file changes, whether their opens succeed or fail, the standard
    output, the error stream and every file only gain text at their end,
    and no file disappears: files are never truncated, rewritten or
    removed. *)
Theorem output_only_grows :
  forall (path : string) (flag : bool) (indeterminate : log_level)
         (es : list event) (this : logging) (w : world),
    grows w (logging_ctor path flag indeterminate w).2
    /\ grows w (run es (this, w)).2.
Proof.
  intros path flag indeterminate es this w.
  split; [apply grows_logging_ctor|].
  change w with (this, w).2 at 1. generalize (this, w). clear.
  induction es as [|e es IH]; intros s; [apply grows_refl|].
  rewrite run_cons. eapply grows_trans; [apply grows_step | apply IH].
Qed.

(** ** Empty paths *)

Lemma run_keeps_cerr (es : list event) (s : logging * world) :
  forallb keeps_file es = true -> cerr (run es s).2 = cerr s.2.
Proof.
  revert s. induction es as [|e es IH]; intros s Hk; [reflexivity|].
  cbn in Hk. apply andb_prop in Hk as [He Hes].
  rewrite run_cons, IH by exact Hes.
  destruct s as [this w].
  destruct e as [[l f m|f m|l|n]|t]; cbn in He |- *;
    try discriminate; try reflexivity; apply add_log_rest.
Qed.

Lemma run_no_file (es : list event) (s : logging * world) :
  forallb keeps_file es = true ->
  log_file s.1 = None ->
  files (run es s).2 = files s.2.
Proof.
  intros Hes Hnone. apply map_eq. intros q.
  apply run_other_files; [exact Hes | congruence].
Qed.

Lemma change_log_file_empty (this : logging) (w : world) :
  change_log_file this EmptyString w
  = (mk_logging (print_log this) EmptyString None (level this), w).
Proof.
  destruct this as [flag name [old|] lvl]; reflexivity.
Qed.

(** X5: constructed with the empty path, the logger is console-only: no
    open is attempted, so nothing goes to the error stream and no file is
    created or written, neither by the bootstrap record nor by any later
    log call; the bootstrap record goes to the standard output exactly
    when the console flag is set. *)
Theorem logging_ctor_empty_path_is_console_only :
  forall (flag : bool) (indeterminate : log_level) (w : world)
         (es : list event),
    forallb keeps_file es = true ->
    let s := logging_ctor EmptyString flag indeterminate w in
    let s' := run es s in
    log_file s.1 = None
    /\ print_log s.1 = flag
    /\ cout s.2
       = (if flag
          then cout w ++ log_message (getCurrentTime (clock w)) UNKNOWN
                           "New logger" banner
          else cout w)
    /\ cerr s'.2 = cerr w
    /\ files s'.2 = files w.
Proof.
  intros flag indeterminate w es Hes s s'. subst s' s.
  rewrite logging_ctor_empty.
  rewrite run_keeps_cerr, run_no_file by (exact Hes || reflexivity).
  cbn [fst snd log_file print_log].
  rewrite add_log_cout, add_log_files. cbn [print_log log_file].
  repeat split. apply add_log_rest.
Qed.

Lemma logging_ctor_empty_path_is_console_only_witness :
  let s' :=
    run [Call (Add_log INFO "main" "started"); Call (Add_log_2 "main" "done")]
      (logging_ctor EmptyString true DEBUG used_world) in
  cerr s'.2 = EmptyString /\ files s'.2 = files used_world.
Proof.
  destruct (logging_ctor_empty_path_is_console_only true DEBUG used_world
              [Call (Add_log INFO "main" "started");
               Call (Add_log_2 "main" "done")] eq_refl)
    as (_ & _ & _ & He & Hf).
  split; [exact He | exact Hf].
Defined.

(** X6: [change_log_file] with the empty path switches the file sink off:
    the stream is closed, no open is attempted and no diagnostic written,
    the console flag and the level stay as they were, and later log calls
    write to no file. *)
Theorem change_log_file_empty_path_closes :
  forall (this : logging) (w : world) (es : list event),
    forallb keeps_file es = true ->
    let s := change_log_file this EmptyString w in
    let s' := run es s in
    s.2 = w
    /\ log_file s.1 = None
    /\ print_log s.1 = print_log this
    /\ level s.1 = level this
    /\ files s'.2 = files w.
Proof.
  intros this w es Hes s s'. subst s' s.
  rewrite change_log_file_empty.
  rewrite run_no_file by (exact Hes || reflexivity).
  repeat split.
Qed.

Lemma change_log_file_empty_path_closes_witness :
  let s0 := logging_ctor "app" true DEBUG used_world in
  let s' :=
    run [Call (Add_log ERROR "worker" "not on file")]
      (change_log_file s0.1 EmptyString s0.2) in
  files s'.2 = files s0.2.
Proof.
  destruct (change_log_file_empty_path_closes
              (logging_ctor "app" true DEBUG used_world).1
              (logging_ctor "app" true DEBUG used_world).2
              [Call (Add_log ERROR "worker" "not on file")] eq_refl)
    as (_ & _ & _ & _ & Hf).
  exact Hf.
Defined.

(** ** Successful opens *)

(** X7: a [change_log_file] whose open succeeds writes nothing: no
    bootstrap record goes to the new file, whose content (empty when it
    did not exist) and that of every other file is what it was, both
    streams are untouched, and the console flag and the level are kept. *)
Theorem change_log_file_success_is_silent :
  forall (this : logging) (path : string) (w : world),
    path <> EmptyString ->
    can_open w (named_file path) = true ->
    let s := change_log_file this path w in
    cout s.2 = cout w
    /\ cerr s.2 = cerr w
    /\ (forall q : string, file_content s.2 q = file_content w q)
    /\ is_Some (files s.2 !! named_file path)
    /\ print_log s.1 = print_log this
    /\ level s.1 = level this.
Proof.
  intros this path w Hne Hopen s. subst s.
  rewrite change_log_file_nonempty, Hopen by exact Hne.
  cbn [fst snd print_log level].
  split; [reflexivity|]. split; [reflexivity|]. split; [|split].
  - intros q. rewrite file_content_insert.
    destruct (decide (named_file path = q)) as [->|]; reflexivity.
  - cbn [files set_files]. rewrite lookup_insert_eq. eauto.
  - split; reflexivity.
Qed.

Lemma change_log_file_success_is_silent_witness :
  let s := change_log_file app_logger "app" used_world in
  file_content s.2 "app.log" = "earlier run" ++ endl
  /\ cout s.2 = EmptyString.
Proof.
  destruct (change_log_file_success_is_silent app_logger "app" used_world)
    as (Ho & _ & Hf & _); [discriminate | reflexivity |].
  split; [apply Hf | exact Ho].
Defined.

(** X8: a constructor whose open succeeds appends the bootstrap record to
    the file and keeps what the file held before (an existing log is
    continued, not overwritten); no other file changes and nothing goes to
    the error stream. *)
Theorem logging_ctor_success_appends_banner :
  forall (path : string) (flag : bool) (indeterminate : log_level)
         (w : world),
    path <> EmptyString ->
    can_open w (named_file path) = true ->
    let s := logging_ctor path flag indeterminate w in
    files s.2 !! named_file path
    = Some (file_content w (named_file path)
            ++ log_message (getCurrentTime (clock w)) UNKNOWN "New logger"
                 banner)
    /\ (forall q : string,
          q <> named_file path -> files s.2 !! q = files w !! q)
    /\ cerr s.2 = cerr w
    /\ print_log s.1 = flag.
Proof.
  intros path flag indeterminate w Hne Hopen s. subst s.
  rewrite logging_ctor_nonempty, Hopen by exact Hne.
  cbn [fst snd print_log]. rewrite add_log_files. cbn [log_file].
  split; [|split; [|split]].
  - rewrite lookup_insert_eq, file_content_insert.
    now destruct (decide (named_file path = named_file path)).
  - intros q Hq. rewrite lookup_insert_ne by congruence.
    cbn [files set_files]. apply lookup_insert_ne. congruence.
  - now rewrite (proj1 (add_log_rest _ _ _ _ _)).
  - reflexivity.
Qed.

Lemma logging_ctor_success_appends_banner_witness :
  files (logging_ctor "app" false DEBUG used_world).2 !! "app.log"
  = Some ("earlier run" ++ endl
          ++ "[22:02:51.865   ] [UNKNOWN        ] [New logger     ] "
          ++ banner ++ endl).
Proof.
  destruct (logging_ctor_success_appends_banner "app" false DEBUG used_world)
    as (Hf & _); [discriminate | reflexivity |].
  exact Hf.
Defined.

(** ** The console flag and the level over time *)

Lemma step_console_off (e : event) (s : logging * world) :
  print_log s.1 = false -> print_log (step e s).1 = false.
Proof.
  destruct s as [this w]. cbn [fst].
  destruct e as [[l f m|f m|l|n]|t]; cbn [step invoke fst snd]; auto.
  intros Hp. destruct n as [|a n].
  - now rewrite change_log_file_empty.
  - rewrite change_log_file_nonempty by discriminate.
    destruct (can_open w _); [exact Hp | reflexivity].
Qed.

(** X9: no method switches console emission on.  Once the console flag
    is false (passed so to the constructor, or cleared by a failed
    [change_log_file]) it is false after every further sequence of calls,
    successful file changes included, and those calls add nothing to the
    standard output. *)
Theorem console_never_comes_back :
  forall (es : list event) (this : logging) (w : world),
    print_log this = false ->
    print_log (run es (this, w)).1 = false
    /\ cout (run es (this, w)).2 = cout w.
Proof.
  intros es this w Hp.
  change (print_log (this, w).1 = false) in Hp.
  change (cout w) with (cout (this, w).2).
  revert Hp. generalize (this, w). clear.
  induction es as [|e es IH]; intros s Hp; [auto|].
  rewrite run_cons.
  destruct (IH (step e s) (step_console_off e s Hp)) as [Hp' Ho].
  split; [exact Hp'|]. rewrite Ho.
  destruct s as [obj w]. cbn [fst] in Hp.
  destruct e as [[l f m|f m|l|n]|t]; cbn [step invoke fst snd];
    rewrite ?add_log_2_unfold, ?add_log_cout, ?Hp; try reflexivity.
  destruct n as [|a n].
  - now rewrite change_log_file_empty.
  - rewrite change_log_file_nonempty by discriminate.
    destruct (can_open w _); reflexivity.
Qed.

Lemma console_never_comes_back_witness :
  let failed := change_log_file app_logger "nolog" sealed_world in
  let later :=
    run [Call (Change_log_file "again"); Call (Add_log FATAL "main" "unseen")]
      (failed.1, set_files (files failed.2) open_world) in
  print_log later.1 = false /\ cout later.2 = EmptyString.
Proof.
  apply (console_never_comes_back
           [Call (Change_log_file "again");
            Call (Add_log FATAL "main" "unseen")]
           (change_log_file app_logger "nolog" sealed_world).1
           (set_files (files (change_log_file app_logger "nolog"
                                sealed_world).2) open_world)).
  reflexivity.
Defined.

Lemma step_level (e : event) (s : logging * world) :
  level (step e s).1
  = match e with Call (Set_log_level l') => l' | _ => level s.1 end.
Proof.
  destruct s as [this w].
  destruct e as [[l f m|f m|l|n]|t]; cbn [step invoke fst snd];
    try reflexivity.
  destruct n as [|a n].
  - now rewrite change_log_file_empty.
  - rewrite change_log_file_nonempty by discriminate.
    destruct (can_open w _); reflexivity.
Qed.

(** X10: the stored level is the argument of the last [set_log_level]
    call, whatever happened since (log calls with other levels, file
    changes that succeed or fail), and the level the logger started with
    when there was none; a two-argument log call then emits its record
    with that level. *)
Theorem stored_level_is_last_set :
  forall (es : list event) (s : logging * world) (fun_name message : string),
    let s' := run es s in
    level s'.1 = last_level es (level s.1)
    /\ emitted (Add_log_2 fun_name message) s'.1 s'.2
       = log_message (getCurrentTime (clock s'.2))
           (last_level es (level s.1)) fun_name message.
Proof.
  intros es s fun_name message s'.
  assert (Hl : level s'.1 = last_level es (level s.1)).
  { subst s'. revert s. induction es as [|e es IH]; intros s; [reflexivity|].
    rewrite run_cons, IH, step_level. reflexivity. }
  split; [exact Hl|]. cbn [emitted]. now rewrite Hl.
Qed.

(** ** The two sinks together, and two names of one file *)

(** X11: on a logger with console emission enabled and a file open, a log
    call of either overload puts one and the same record at the end of
    the standard output and at the end of the file, and nothing on the
    error stream. *)
Theorem both_sinks_receive_the_record :
  forall (m : method) (this : logging) (w : world) (path : string),
    is_log_call m = true ->
    print_log this = true ->
    log_file this = Some path ->
    let w' := (invoke m this w).2 in
    cout w' = cout w ++ emitted m this w
    /\ file_content w' path = file_content w path ++ emitted m this w
    /\ cerr w' = cerr w.
Proof.
  intros m this w path Hm Hp Hf w'. subst w'.
  destruct m as [l f msg|f msg|l|n]; try discriminate;
    cbn [invoke snd emitted]; rewrite ?add_log_2_unfold;
    unfold file_content at 1;
    rewrite add_log_cout, add_log_files, Hp, Hf, lookup_insert_eq;
    (split; [reflexivity|split; [reflexivity|apply add_log_rest]]).
Qed.

Lemma both_sinks_receive_the_record_witness :
  let s0 := logging_ctor "app" true DEBUG used_world in
  let w' := (invoke (Add_log INFO "main" "started") s0.1 s0.2).2 in
  cout w' = cout s0.2 ++ emitted (Add_log INFO "main" "started") s0.1 s0.2
  /\ file_content w' "app.log"
     = file_content s0.2 "app.log"
       ++ emitted (Add_log INFO "main" "started") s0.1 s0.2.
Proof.
  destruct (both_sinks_receive_the_record (Add_log INFO "main" "started")
              (logging_ctor "app" true DEBUG used_world).1
              (logging_ctor "app" true DEBUG used_world).2 "app.log")
    as (Ho & Hf & _); [reflexivity | reflexivity | reflexivity |].
  split; [exact Ho | exact Hf].
Defined.

Lemma contains_append (s t : string) (c : ascii) :
  StdString.contains (s ++ t) c
  = StdString.contains s c || StdString.contains t c.
Proof.
  induction s as [|a s IH]; [reflexivity|].
  rewrite append_cons. cbn [StdString.contains]. rewrite IH.
  now rewrite orb_assoc.
Qed.

(** X12: a path without a ['.'] and the same path with ".log" written
    out are two names of one log file: [change_log_file] with either
    leaves the logger and the world in the same state, and the
    constructor opens the same file and produces the same output with
    either. *)
Theorem suffix_is_optional :
  forall (path : string) (flag : bool) (indeterminate : log_level)
         (this : logging) (w : world),
    path <> EmptyString ->
    StdString.contains path "."%char = false ->
    change_log_file this (path ++ ".log") w = change_log_file this path w
    /\ log_file (logging_ctor (path ++ ".log") flag indeterminate w).1
       = log_file (logging_ctor path flag indeterminate w).1
    /\ (logging_ctor (path ++ ".log") flag indeterminate w).2
       = (logging_ctor path flag indeterminate w).2.
Proof.
  intros path flag indeterminate this w Hne Hdot.
  assert (Hne' : path ++ ".log" <> EmptyString)
    by (destruct path; [congruence | discriminate]).
  assert (Hn : named_file (path ++ ".log") = named_file path).
  { unfold named_file. rewrite contains_append, Hdot. reflexivity. }
  rewrite !change_log_file_nonempty, !logging_ctor_nonempty, Hn
    by assumption.
  destruct (can_open w (named_file path)); cbn [fst snd log_file];
    repeat split.
Qed.

Lemma suffix_is_optional_witness :
  change_log_file app_logger "other.log" used_world
  = change_log_file app_logger "other" used_world.
Proof.
  destruct (suffix_is_optional "other" true DEBUG app_logger used_world)
    as (Hc & _); [discriminate | reflexivity |].
  exact Hc.
Defined.

(** ** Through the pointer *)




(** X14: the initialiser of [logger::log] runs before [main] and always
    yields a non-null pointer to a logger with console emission enabled:
    it has put the bootstrap record on the standard output, and it is
    attached to "app.log" (where the record went too) when that file can
    be opened and has no file sink and one diagnostic line otherwise. *)
Theorem logger_log_is_ready :
  forall (indeterminate : log_level) (w : world),
    let r := logger_log indeterminate w in
    exists p : addr,
      r.1 = Some p
      /\ heap r.2 !! p
         = Some (mk_logging true "app"
                   (if can_open w "app.log" then Some "app.log" else None)
                   indeterminate)
      /\ cout (env r.2)
         = cout w ++ log_message (getCurrentTime (clock w)) UNKNOWN
                       "New logger" banner
      /\ (if can_open w "app.log"
          then files (env r.2) !! "app.log"
               = Some (file_content w "app.log"
                       ++ log_message (getCurrentTime (clock w)) UNKNOWN
                            "New logger" banner)
               /\ cerr (env r.2) = cerr w
          else files (env r.2) = files w
               /\ cerr (env r.2)
                  = cerr w ++ "Can't open log file app.log" ++ endl).
Proof.
  intros indeterminate w r. subst r. unfold logger_log.
  rewrite get_instance_first by reflexivity.
  eexists. split; [reflexivity|]. cbn [fst snd heap env process_start].
  rewrite lookup_insert_eq.
  rewrite logging_ctor_nonempty by discriminate.
  change (named_file "app") with "app.log".
  destruct (can_open w "app.log"); cbn [fst snd];
    rewrite add_log_cout, add_log_files; cbn [print_log log_file];
    rewrite (proj1 (add_log_rest _ _ _ _ _)).
  - split; [reflexivity|]. split; [reflexivity|]. split; [|reflexivity].
    rewrite lookup_insert_eq, file_content_insert.
    now destruct (decide ("app.log" = "app.log")).
  - repeat split.
Qed.
